(** * ODE Methods website: verification of [static/js/main.js]

    The file embeds the two pieces of client-side code of the repository:
    the display helper [formatEquation] and the [DOMContentLoaded] handler
    that highlights the navigation link of the current page. *)

From Stdlib Require Import Ascii String.
From stdpp Require Import base option list strings gmap.
From Equations Require Import Equations.

Local Open Scope string_scope.

(** ** Strings and regular expressions

    A JavaScript string is a finite sequence of code units; it is modelled
    as a [string], a code unit as an [ascii].  The source only uses regular
    expressions that are sequences of escaped literal characters, so a
    pattern is a literal character or the concatenation of two patterns. *)

Module JsString.

Inductive regex : Type :=
  | Char (c : ascii)
  | Seq (r1 r2 : regex).

(** Matching of a pattern at the very start of the input: the result is
    the input left after the matched text, or [None] when the pattern does
    not match there. *)
Fixpoint match_here (r : regex) (s : string) : option string :=
  match r with
  | Char c =>
      match s with
      | String d s' => if Ascii.eqb c d then Some s' else None
      | EmptyString => None
      end
  | Seq r1 r2 =>
      match match_here r1 s with
      | Some s' => match_here r2 s'
      | None => None
      end
  end.

(** One call of the regular expression's [exec] on what is left of the
    input: the leftmost match.  The result is the text before the match
    and the text after it. *)
Fixpoint exec (r : regex) (s : string) : option (string * string) :=
  match match_here r s with
  | Some post => Some (EmptyString, post)
  | None =>
      match s with
      | EmptyString => None
      | String c s' =>
          match exec r s' with
          | Some (pre, post) => Some (String c pre, post)
          | None => None
          end
      end
  end.

Lemma match_here_shorter (r : regex) :
  forall s post, match_here r s = Some post -> String.length post < String.length s.
Proof.
  induction r as [c | r1 IH1 r2 IH2]; intros s post H; simpl in H.
  - destruct s as [| d s']; [discriminate |].
    destruct (Ascii.eqb c d); [| discriminate].
    injection H as <-. simpl. lia.
  - destruct (match_here r1 s) as [mid |] eqn:E1; [| discriminate].
    apply IH1 in E1. apply IH2 in H. lia.
Qed.

Lemma exec_shorter (r : regex) :
  forall s pre post, exec r s = Some (pre, post) -> String.length post < String.length s.
Proof.
  induction s as [| c s' IH]; intros pre post H; simpl in H.
  - destruct (match_here r "") as [p |] eqn:E; [| discriminate].
    injection H as _ <-. now apply match_here_shorter in E.
  - destruct (match_here r (String c s')) as [p |] eqn:E.
    + injection H as _ <-. now apply match_here_shorter in E.
    + destruct (exec r s') as [[pre' post'] |] eqn:E'; [| discriminate].
      injection H as _ <-. specialize (IH _ _ eq_refl). simpl. lia.
Qed.

(** [String.prototype.replace] with a global regular expression and a
    replacement text without [$] patterns: every match found by repeated
    [exec], each search resuming right after the previous match, is
    replaced; the text between the matches is copied. *)
Equations replace (r : regex) (rep : string) (s : string) : string
  by wf (String.length s) lt :=
  replace r rep s with Logic.inspect (exec r s) := {
    | exist _ (Some (pre, post)) _ => pre ++ rep ++ replace r rep post
    | exist _ None _ => s
  }.
Next Obligation.
  eapply exec_shorter; eauto.
Qed.

(** [/\*\*/g] and [/\*/g]. *)
Definition re_star_star : regex := Seq (Char "*") (Char "*").
Definition re_star : regex := Char "*".

(** The replacement texts of the source: the one-character text [^] and
    the six-character text written ['\\cdot '] in the source, that is a
    backslash, [c], [d], [o], [t] and a space.  Neither holds a [$]. *)
Definition caret : string := "^".
Definition cdot : string := "\cdot ".

(** [function formatEquation(eq)] of [main.js]. *)
Definition formatEquation (eq : string) : string :=
  replace re_star cdot (replace re_star_star caret eq).

(** [String.prototype.includes]: does [sub] occur in [s]? *)
Fixpoint includes (sub s : string) : bool :=
  String.prefix sub s ||
  match s with
  | EmptyString => false
  | String _ s' => includes sub s'
  end.

(** *** The substitutions as the specification words them *)

Definition is_star (c : ascii) : bool := Ascii.eqb c "*".

(** Every occurrence of [**], read from the left, becomes [^]. *)
Fixpoint subst_star_star (s : string) : string :=
  match s with
  | EmptyString => EmptyString
  | String c s' =>
      match s' with
      | EmptyString => String c EmptyString
      | String d s'' =>
          if is_star c && is_star d
          then String "^" (subst_star_star s'')
          else String c (subst_star_star s')
      end
  end.

(** Every [*] becomes backslash, [c], [d], [o], [t], space. *)
Fixpoint subst_star (s : string) : string :=
  match s with
  | EmptyString => EmptyString
  | String c s' =>
      if is_star c
      then String "\" (String "c" (String "d" (String "o" (String "t"
             (String " " (subst_star s'))))))
      else String c (subst_star s')
  end.

(** *** Unfolding of [replace] along the input *)

Lemma replace_exec (r : regex) (rep s : string) :
  replace r rep s =
  match exec r s with
  | Some (pre, post) => pre ++ rep ++ replace r rep post
  | None => s
  end.
Proof.
  funelim (replace r rep s).
  - now rewrite e.
  - now rewrite e.
Qed.

Lemma append_empty_r (s : string) : s ++ "" = s.
Proof.
  induction s as [| c s' IH]; [reflexivity |].
  change (String c s' ++ "") with (String c (s' ++ "")). now rewrite IH.
Qed.

Lemma match_here_empty (r : regex) : match_here r "" = None.
Proof.
  induction r as [c | r1 IH1 r2 IH2]; cbn [match_here]; [reflexivity |].
  now rewrite IH1.
Qed.

Lemma replace_nil (r : regex) (rep : string) : replace r rep "" = "".
Proof.
  rewrite replace_exec. cbn [exec]. now rewrite match_here_empty.
Qed.

Lemma replace_cons (r : regex) (rep : string) (c : ascii) (s : string) :
  replace r rep (String c s) =
  match match_here r (String c s) with
  | Some post => rep ++ replace r rep post
  | None => String c (replace r rep s)
  end.
Proof.
  rewrite replace_exec. cbn [exec].
  destruct (match_here r (String c s)) as [post |]; [reflexivity |].
  rewrite (replace_exec r rep s).
  destruct (exec r s) as [[pre post] |]; reflexivity.
Qed.

(** *** The two substitutions of the source against their wording *)

Lemma replace_star_correct (s : string) :
  replace re_star cdot s = subst_star s.
Proof.
  unfold re_star. induction s as [| c s' IH].
  - apply replace_nil.
  - rewrite replace_cons. cbn [match_here subst_star].
    unfold is_star. rewrite (Ascii.eqb_sym c).
    destruct (Ascii.eqb "*" c); now rewrite IH.
Qed.

Lemma subst_star_star_cons (c d : ascii) (s : string) :
  subst_star_star (String c (String d s)) =
  if is_star c && is_star d
  then String "^" (subst_star_star s)
  else String c (subst_star_star (String d s)).
Proof. reflexivity. Qed.

Lemma replace_star_star_correct (s : string) :
  replace re_star_star caret s = subst_star_star s.
Proof.
  assert (H : forall n s, String.length s < n ->
                replace re_star_star caret s = subst_star_star s).
  { clear s. unfold re_star_star.
    induction n as [| n IH]; intros s Hn; [lia |].
    destruct s as [| c [| d s'']].
    - apply replace_nil.
    - rewrite replace_cons, replace_nil.
      cbn [match_here subst_star_star].
      now destruct (Ascii.eqb "*" c).
    - rewrite replace_cons, subst_star_star_cons.
      cbn [match_here]. unfold is_star.
      rewrite (Ascii.eqb_sym c), (Ascii.eqb_sym d).
      cbn [String.length] in Hn.
      destruct (Ascii.eqb "*" c); cbn [andb].
      + destruct (Ascii.eqb "*" d).
        * rewrite IH by lia. reflexivity.
        * rewrite IH by (cbn [String.length]; lia). reflexivity.
      + rewrite IH by (cbn [String.length]; lia). reflexivity. }
  apply (H (S (String.length s))). lia.
Qed.

(** *** Occurrences of the star *)

Lemma includes_star_cons (c : ascii) (s : string) :
  includes "*" (String c s) = is_star c || includes "*" s.
Proof.
  cbn [includes String.prefix]. unfold is_star.
  rewrite (Ascii.eqb_sym c).
  destruct (ascii_dec "*" c) as [<- | Hne].
  - now destruct s.
  - destruct (Ascii.eqb_spec "*" c) as [E | _]; [contradiction | reflexivity].
Qed.

Lemma subst_star_no_star (s : string) : includes "*" (subst_star s) = false.
Proof.
  induction s as [| c s' IH]; [reflexivity |].
  cbn [subst_star]. destruct (is_star c) eqn:E.
  - rewrite !includes_star_cons, IH. reflexivity.
  - now rewrite includes_star_cons, E, IH.
Qed.

Lemma subst_star_id (s : string) :
  includes "*" s = false -> subst_star s = s.
Proof.
  induction s as [| c s' IH]; [reflexivity |].
  rewrite includes_star_cons. intros [E1 E2]%orb_false_elim.
  cbn [subst_star]. now rewrite E1, IH.
Qed.

Lemma subst_star_star_id (s : string) :
  includes "*" s = false -> subst_star_star s = s.
Proof.
  induction s as [| c s' IH]; [reflexivity |].
  rewrite includes_star_cons. intros [E1 E2]%orb_false_elim.
  destruct s' as [| d s'']; [reflexivity |].
  rewrite subst_star_star_cons, E1. cbn [andb]. now rewrite IH.
Qed.

(** C1. For every input [eq], [formatEquation eq] is the text obtained by
    first replacing every occurrence of [**] by [^] and then every
    remaining [*] by the six characters backslash, [c], [d], [o], [t],
    space: the two global substitutions of the source, chained in that
    order, compute what the two worded substitutions describe. *)
Theorem formatEquation_two_substitutions (eq : string) :
  formatEquation eq = subst_star (subst_star_star eq).
Proof.
  unfold formatEquation.
  now rewrite replace_star_star_correct, replace_star_correct.
Qed.

(** C2. [formatEquation "x**2*y"] is the ten-character text [x], [^], [2],
    backslash, [c], [d], [o], [t], space, [y], with one backslash (code
    92) as its fourth character. *)
Theorem formatEquation_example :
  formatEquation "x**2*y" =
    String "x" (String "^" (String "2" (String (ascii_of_nat 92)
      (String "c" (String "d" (String "o" (String "t" (String " "
        (String "y" EmptyString)))))))))
  /\ String.length (formatEquation "x**2*y") = 10.
Proof. split; reflexivity. Qed.

(** C3. On an input that contains neither [**] nor [*], [formatEquation]
    returns its input, and is therefore idempotent there. *)
Theorem formatEquation_no_star (s : string) :
  includes "**" s = false ->
  includes "*" s = false ->
  formatEquation s = s /\ formatEquation (formatEquation s) = formatEquation s.
Proof.
  intros _ Hstar.
  assert (E : formatEquation s = s).
  { unfold formatEquation.
    rewrite replace_star_star_correct, replace_star_correct.
    now rewrite (subst_star_star_id s Hstar), (subst_star_id s Hstar). }
  now rewrite !E.
Qed.

(** C3 at the input [dy/dx = x + y]. *)
Lemma formatEquation_no_star_witness :
  formatEquation "dy/dx = x + y" = "dy/dx = x + y"
  /\ formatEquation (formatEquation "dy/dx = x + y")
     = formatEquation "dy/dx = x + y".
Proof.
  apply (formatEquation_no_star "dy/dx = x + y"); reflexivity.
Defined.

(** C7. The text returned by [formatEquation] never contains a [*]. *)
Theorem formatEquation_no_star_left (s : string) :
  includes "*" (formatEquation s) = false.
Proof.
  unfold formatEquation. rewrite replace_star_correct.
  apply subst_star_no_star.
Qed.

(** C8. [formatEquation] is idempotent on every input: its result holds
    no [*], so a second application rewrites nothing. *)
Theorem formatEquation_idempotent (s : string) :
  formatEquation (formatEquation s) = formatEquation s.
Proof.
  assert (H : includes "*" (formatEquation s) = false).
  { unfold formatEquation. rewrite replace_star_correct.
    apply subst_star_no_star. }
  unfold formatEquation at 1.
  rewrite replace_star_star_correct, replace_star_correct.
  now rewrite (subst_star_star_id _ H), (subst_star_id _ H).
Qed.

End JsString.

(** ** The page and the [DOMContentLoaded] handler

    The document is a tree of elements.  An element carries what the
    handler reads or writes: its local name, its class list, its content
    attributes and the properties of its inline [style] object.  A
    reference to an element, as held by a [NodeList], is the path of child
    indices that leads to it from the root element; the handler never
    changes the tree's shape, so paths stay valid while it runs. *)

Module Dom.

Record element : Type := Element {
  localName : string;               (* [a], [nav], ... *)
  classList : list string;          (* the tokens of the [class] attribute *)
  attributes : gmap string string;  (* content attributes other than [style] *)
  style : option (gmap string string)
    (* the inline declarations, by property name as the script spells it;
       [None] when the element has no [style] object, as an element that
       is neither an HTML, an SVG nor a MathML element *)
}.

#[warnings="-register-all"]
Inductive node : Type :=
  | Node (e : element) (children : list node).

Definition elem (n : node) : element :=
  match n with Node e _ => e end.

Definition children (n : node) : list node :=
  match n with Node _ cs => cs end.

Definition path : Type := list nat.

(** The element a reference designates, if any. *)
Fixpoint subtree (p : path) (n : node) : option node :=
  match p with
  | [] => Some n
  | i :: p' =>
      match children n !! i with
      | Some c => subtree p' c
      | None => None
      end
  end.

Definition get (p : path) (n : node) : option element :=
  elem <$> subtree p n.

(** A write through a reference: [f] is applied to the designated element,
    its children and every other element stay as they are. *)
Fixpoint update (p : path) (f : element -> element) (n : node) : option node :=
  match p with
  | [] => Some (Node (f (elem n)) (children n))
  | i :: p' =>
      match children n !! i with
      | Some c =>
          match update p' f c with
          | Some c' => Some (Node (elem n) (<[i := c']> (children n)))
          | None => None
          end
      | None => None
      end
  end.

(** *** Selectors

    The selector of the source, [.nav-menu a], is a class selector and a
    type selector joined by the descendant combinator. *)

Inductive simple_selector : Type :=
  | ClassSelector (c : string)
  | TypeSelector (t : string).

Record selector : Type := Descendant {
  ancestor : simple_selector;
  subject : simple_selector
}.

Definition nav_menu_a : selector :=
  Descendant (ClassSelector "nav-menu") (TypeSelector "a").

Definition matches (sel : simple_selector) (e : element) : bool :=
  match sel with
  | ClassSelector c => bool_decide (c ∈ classList e)
  | TypeSelector t => String.eqb t (localName e)
  end.

Section Children.

Variable visit : node -> list path.

(** The references found below the children [cs], the first of which has
    index [i]; [visit] gives the references found in one child. *)
Fixpoint select_children (i : nat) (cs : list node) : list path :=
  match cs with
  | [] => []
  | c :: cs' => (map (cons i) (visit c) ++ select_children (S i) cs')%list
  end.

End Children.

(** The elements of the tree [n] matched by [sel], in document order;
    [under] tells whether a proper ancestor of [n] matches the left part
    of [sel]. *)
Fixpoint select (sel : selector) (under : bool) (n : node) : list path :=
  match n with
  | Node e cs =>
      (if under && matches (subject sel) e then [[]] else []) ++
      select_children (select sel (under || matches (ancestor sel) e)) 0 cs
  end.

(** [document.querySelectorAll]: a static list of references. *)
Definition querySelectorAll (sel : selector) (doc : node) : list path :=
  select sel false doc.

(** *** The page state *)

Record state : Type := State {
  pathname : string;          (* window.location.pathname *)
  document : node;            (* the root element of the document *)
  console : list string       (* the lines logged so far *)
}.

(** How a piece of script ends: normally, or by a [TypeError] that
    nothing catches.  What was written before the error stays written. *)
Inductive completion : Type :=
  | Normal
  | TypeError.

Definition getAttribute (e : element) (name : string) : option string :=
  attributes e !! name.

(** The element [e] once [prop] is [value] in its style object. *)
Definition set_style (prop value : string) (e : element) : element :=
  match style e with
  | Some s =>
      Element (localName e) (classList e) (attributes e)
        (Some (<[prop := value]> s))
  | None => e
  end.

(** [link.style.prop = value].  The result is [None] when [link.style]
    is undefined: the assignment then raises a [TypeError] and writes
    nothing. *)
Definition assign_style (link : path) (prop value : string) (doc : node)
  : option node :=
  match get link doc with
  | Some e =>
      match style e with
      | Some _ => update link (set_style prop value) doc
      | None => None
      end
  | None => None
  end.

(** The body of the arrow function given to [navLinks.forEach]: the
    document it leaves, and how it ends. *)
Definition highlight (currentPath : string) (doc : node) (link : path)
  : node * completion :=
  match get link doc with
  | Some e =>
      if decide (getAttribute e "href" = Some currentPath) then
        match assign_style link "opacity" "1" doc with
        | Some doc1 =>
            match assign_style link "fontWeight" "bold" doc1 with
            | Some doc2 => (doc2, Normal)
            | None => (doc1, TypeError)
            end
        | None => (doc, TypeError)
        end
      else (doc, Normal)
  | None => (doc, TypeError)
  end.

(** [NodeList.prototype.forEach]: the loop stops at the first call of
    [body] that raises. *)
Fixpoint forEach (links : list path)
  (body : node -> path -> node * completion) (doc : node)
  : node * completion :=
  match links with
  | [] => (doc, Normal)
  | link :: rest =>
      match body doc link with
      | (doc', Normal) => forEach rest body doc'
      | (doc', TypeError) => (doc', TypeError)
      end
  end.

(** The listener registered for [DOMContentLoaded]: the page it leaves,
    and how it ends. *)
Definition DOMContentLoaded (st : state) : state * completion :=
  let log := (console st ++ ["ODE Methods website loaded"])%list in
  let currentPath := pathname st in
  let navLinks := querySelectorAll nav_menu_a (document st) in
  match forEach navLinks (highlight currentPath) (document st) with
  | (doc', c) => (State (pathname st) doc' log, c)
  end.

(** A small page: a navigation bar with two links, and a link outside it. *)
Definition a_link (href : string) : node :=
  Node (Element "a" [] {[ "href" := href ]} (Some ∅)) [].

Definition sample_page : node :=
  Node (Element "body" [] ∅ (Some ∅))
    [ Node (Element "nav" ["navbar"; "nav-menu"] ∅ (Some ∅))
        [ a_link "/"; a_link "/phase-portraits" ];
      a_link "/phase-portraits" ].

Definition sample_state : state :=
  State "/phase-portraits" sample_page [].

(** An [a] element of a foreign namespace: it has attributes, and no
    [style] object. *)
Definition foreign_link (href : string) : node :=
  Node (Element "a" [] {[ "href" := href ]} None) [].

(** A page whose navigation bar holds such an element between two
    ordinary links. *)
Definition foreign_page : node :=
  Node (Element "body" [] ∅ (Some ∅))
    [ Node (Element "nav" ["nav-menu"] ∅ (Some ∅))
        [ a_link "/";
          foreign_link "/phase-portraits";
          a_link "/phase-portraits" ] ].

Definition foreign_state : state :=
  State "/phase-portraits" foreign_page [].

(** What the handler does to one element of its list: both properties
    are set when the [href] attribute is the current path. *)
Definition highlighted (currentPath : string) (e : element) : element :=
  if decide (getAttribute e "href" = Some currentPath)
  then set_style "fontWeight" "bold" (set_style "opacity" "1" e)
  else e.

(** The callback raises on [e]: the [href] is the current path and
    there is no style object to write to. *)
Definition raises_on (currentPath : string) (e : element) : bool :=
  bool_decide (getAttribute e "href" = Some currentPath) &&
  bool_decide (style e = None).

Definition raises_at (currentPath : string) (doc : node) (link : path) : bool :=
  match get link doc with
  | Some e => raises_on currentPath e
  | None => true
  end.

(** The links the loop gets through: those before the first one on
    which the callback raises. *)
Fixpoint visited (currentPath : string) (doc : node) (links : list path)
  : list path :=
  match links with
  | [] => []
  | q :: rest =>
      if raises_at currentPath doc q then []
      else q :: visited currentPath doc rest
  end.

Definition completes (currentPath : string) (doc : node) (links : list path)
  : bool :=
  forallb (fun q => negb (raises_at currentPath doc q)) links.

(** *** References: reads after writes *)

Lemma update_is_Some (p : path) (f : element -> element) :
  forall n, is_Some (get p n) -> is_Some (update p f n).
Proof.
  induction p as [| i p' IH]; intros n H; cbn [update]; [eauto |].
  unfold get in H. cbn [subtree] in H.
  destruct (children n !! i) as [c |]; [| by destruct H].
  destruct (IH c H) as [c' ->]. eauto.
Qed.

Lemma get_update (q : path) (f : element -> element) :
  forall n n' p,
    update q f n = Some n' ->
    get p n' = if decide (p = q) then f <$> get p n else get p n.
Proof.
  induction q as [| i q' IH]; intros n n' p H; cbn [update] in H.
  - injection H as <-. destruct p as [| j p']; [reflexivity |].
    rewrite decide_False by discriminate. reflexivity.
  - destruct (children n !! i) as [c |] eqn:Ec; [| discriminate].
    destruct (update q' f c) as [c' |] eqn:Eu; [| discriminate].
    injection H as <-.
    destruct p as [| j p'].
    + rewrite decide_False by discriminate. reflexivity.
    + unfold get. cbn [subtree children].
      destruct (decide (j = i)) as [-> | Hji].
      * rewrite list_lookup_insert_eq by (eapply lookup_lt_Some; eauto).
        rewrite Ec. fold (get p' c') (get p' c).
        rewrite (IH c c' p' Eu).
        repeat case_decide; try reflexivity; congruence.
      * rewrite list_lookup_insert_ne by congruence.
        rewrite decide_False by congruence. reflexivity.
Qed.

Lemma set_style_attributes (prop value : string) (e : element) :
  localName (set_style prop value e) = localName e /\
  classList (set_style prop value e) = classList e /\
  attributes (set_style prop value e) = attributes e /\
  style (set_style prop value e) = (insert prop value <$> style e).
Proof.
  unfold set_style. destruct (style e) as [s |] eqn:Es; cbn; [done |].
  by rewrite Es.
Qed.

Lemma set_style_Some (prop value : string) (e : element)
  (s : gmap string string) :
  style e = Some s ->
  set_style prop value e =
  Element (localName e) (classList e) (attributes e)
    (Some (<[prop := value]> s)).
Proof. intros H. unfold set_style. by rewrite H. Qed.

Lemma set_style_None (prop value : string) (e : element) :
  style e = None -> set_style prop value e = e.
Proof. intros H. unfold set_style. by rewrite H. Qed.

Lemma getAttribute_set_style (prop value : string) (e : element)
  (name : string) :
  getAttribute (set_style prop value e) name = getAttribute e name.
Proof.
  unfold getAttribute.
  by destruct (set_style_attributes prop value e) as (_ & _ & -> & _).
Qed.

Lemma highlighted_idempotent (cur : string) (e : element) :
  highlighted cur (highlighted cur e) = highlighted cur e.
Proof.
  unfold highlighted.
  destruct (decide (getAttribute e "href" = Some cur)) as [H | H].
  - rewrite !getAttribute_set_style, decide_True by exact H.
    destruct e as [ln cl att [s |]]; [| reflexivity].
    unfold set_style. cbn. f_equal. f_equal.
    apply map_eq. intros k. rewrite !lookup_insert.
    repeat case_decide; reflexivity.
  - rewrite decide_False by exact H. reflexivity.
Qed.

Lemma raises_on_highlighted (cur : string) (e : element) :
  raises_on cur (highlighted cur e) = raises_on cur e.
Proof.
  unfold highlighted. case_decide; [| reflexivity].
  unfold raises_on. rewrite !getAttribute_set_style. f_equal.
  destruct (set_style_attributes "fontWeight" "bold"
              (set_style "opacity" "1" e)) as (_ & _ & _ & ->).
  destruct (set_style_attributes "opacity" "1" e) as (_ & _ & _ & ->).
  by destruct (style e).
Qed.

(** *** One assignment, one step of the loop, and the loop *)

Lemma assign_style_spec (q : path) (prop value : string) (doc : node)
  (e : element) :
  get q doc = Some e ->
  is_Some (style e) ->
  exists doc1,
    assign_style q prop value doc = Some doc1 /\
    forall p, get p doc1 =
              if decide (p = q) then set_style prop value <$> get p doc
              else get p doc.
Proof.
  intros He [s Hs]. unfold assign_style. rewrite He, Hs.
  destruct (update_is_Some q (set_style prop value) doc) as [doc1 E1];
    [eauto |].
  exists doc1. split; [exact E1 |].
  intros p. exact (get_update q _ doc doc1 p E1).
Qed.

Lemma highlight_raises (cur : string) (doc : node) (q : path) :
  raises_at cur doc q = true ->
  highlight cur doc q = (doc, TypeError).
Proof.
  unfold raises_at, highlight, assign_style.
  destruct (get q doc) as [e |]; [| reflexivity].
  unfold raises_on. intros [Hh Hs]%andb_true_iff.
  apply bool_decide_eq_true in Hh. apply bool_decide_eq_true in Hs.
  rewrite decide_True by exact Hh. by rewrite Hs.
Qed.

Lemma highlight_spec (cur : string) (doc : node) (q : path) :
  raises_at cur doc q = false ->
  exists doc1,
    highlight cur doc q = (doc1, Normal) /\
    forall p, get p doc1 =
              if decide (p = q) then highlighted cur <$> get p doc
              else get p doc.
Proof.
  unfold raises_at, highlight.
  destruct (get q doc) as [e |] eqn:He; [| discriminate].
  unfold raises_on. intros Hr.
  destruct (decide (getAttribute e "href" = Some cur)) as [H | H].
  - rewrite bool_decide_eq_true_2 in Hr by exact H. cbn [andb] in Hr.
    apply bool_decide_eq_false in Hr.
    assert (Hs : is_Some (style e)) by (by destruct (style e); eauto).
    clear Hr.
    destruct (assign_style_spec q "opacity" "1" doc e He Hs) as (d1 & E1 & G1).
    rewrite E1.
    assert (He1 : get q d1 = Some (set_style "opacity" "1" e)).
    { rewrite G1, He. by case_decide. }
    assert (Hs1 : is_Some (style (set_style "opacity" "1" e))).
    { destruct Hs as [s Hs]. unfold set_style. rewrite Hs. eauto. }
    destruct (assign_style_spec q "fontWeight" "bold" d1 _ He1 Hs1)
      as (d2 & E2 & G2).
    rewrite E2. exists d2. split; [reflexivity |].
    intros p. rewrite G2, G1.
    repeat case_decide; subst; try reflexivity; try congruence.
    rewrite He. cbn. unfold highlighted.
    rewrite decide_True by exact H. reflexivity.
  - clear Hr. exists doc. split; [reflexivity |].
    intros p. case_decide as Hp; [subst p | reflexivity].
    rewrite He. cbn. unfold highlighted.
    rewrite decide_False by exact H. reflexivity.
Qed.

(** Whether the callback raises on a link is not changed by the writes
    of the handler. *)
Lemma raises_at_highlighted (cur : string) (doc doc1 : node) :
  (forall p, get p doc1 = get p doc \/
             get p doc1 = (highlighted cur <$> get p doc)) ->
  forall q, raises_at cur doc1 q = raises_at cur doc q.
Proof.
  intros G q. unfold raises_at.
  destruct (G q) as [-> | ->]; [reflexivity |].
  destruct (get q doc) as [e |]; [| reflexivity].
  cbn. apply raises_on_highlighted.
Qed.

Lemma visited_highlighted (cur : string) (doc doc1 : node)
  (links : list path) :
  (forall q, raises_at cur doc1 q = raises_at cur doc q) ->
  visited cur doc1 links = visited cur doc links /\
  completes cur doc1 links = completes cur doc links.
Proof.
  intros H. unfold completes.
  induction links as [| q rest [IH1 IH2]]; [done |].
  cbn [visited forallb]. by rewrite H, IH1, IH2.
Qed.

Lemma forEach_highlight (cur : string) (links : list path) :
  forall doc,
    exists doc',
      forEach links (highlight cur) doc =
        (doc', if completes cur doc links then Normal else TypeError) /\
      forall p, get p doc' =
                if decide (p ∈ visited cur doc links)
                then highlighted cur <$> get p doc
                else get p doc.
Proof.
  induction links as [| q rest IH]; intros doc;
    cbn [forEach visited completes forallb].
  - exists doc. split; [reflexivity |]. intros p.
    rewrite decide_False by apply not_elem_of_nil. reflexivity.
  - destruct (raises_at cur doc q) eqn:Hr.
    + rewrite (highlight_raises cur doc q Hr). exists doc.
      split; [reflexivity |]. intros p.
      rewrite decide_False by apply not_elem_of_nil. reflexivity.
    + destruct (highlight_spec cur doc q Hr) as (doc1 & E1 & G1).
      rewrite E1. cbn [negb andb].
      destruct (IH doc1) as (doc' & E' & G').
      destruct (visited_highlighted cur doc doc1 rest) as [Ev Ec].
      { apply raises_at_highlighted. intros p. rewrite G1.
        case_decide; auto. }
      fold (completes cur doc rest). rewrite <- Ec, <- Ev.
      exists doc'. split; [exact E' |].
      intros p. rewrite G', G1.
      repeat case_decide; subst; try reflexivity;
        try (exfalso;
             match goal with
             | Hn : _ ∉ _ :: _ |- _ => apply Hn; first [by left | by right]
             | Hi : _ ∈ _ :: _ |- _ =>
                 apply elem_of_cons in Hi; destruct Hi; contradiction
             end).
      destruct (get q doc) as [e |]; [| reflexivity].
      cbn. now rewrite highlighted_idempotent.
Qed.

(** *** What [querySelectorAll] returns

    A reference is returned exactly when it designates an element matched
    by the right part of the selector that has a proper ancestor matched
    by its left part. *)

Definition proper_ancestor (q p : path) : Prop :=
  exists i k, p = (q ++ i :: k)%list.

Lemma elem_of_select_children (visit : node -> list path) (cs : list node) :
  forall i p,
    p ∈ select_children visit i cs <->
    exists j c p', p = (i + j) :: p' /\ cs !! j = Some c /\ p' ∈ visit c.
Proof.
  induction cs as [| c cs IH]; intros i p; cbn [select_children].
  - split; [by intros ?%elem_of_nil | by intros (j & c & p' & _ & ? & _)].
  - rewrite elem_of_app, list_elem_of_fmap, IH. split.
    + intros [(p' & -> & Hp') | (j & d & p' & -> & Hd & Hp')].
      * exists 0, c, p'. by rewrite Nat.add_0_r.
      * exists (S j), d, p'. by rewrite Nat.add_succ_r.
    + intros ([| j] & d & p' & -> & Hd & Hp').
      * injection Hd as <-. left. exists p'. by rewrite Nat.add_0_r.
      * right. exists j, d, p'. by rewrite Nat.add_succ_r.
Qed.

Lemma elem_of_select (sel : selector) (p : path) :
  forall under n,
    p ∈ select sel under n <->
    exists e,
      get p n = Some e /\ matches (subject sel) e = true /\
      (under = true \/
       exists q a, proper_ancestor q p /\ get q n = Some a /\
                   matches (ancestor sel) a = true).
Proof.
  induction p as [| j p' IH]; intros under [e0 cs]; cbn [select];
    rewrite elem_of_app, elem_of_select_children.
  - split.
    + intros [H | (j & c & p' & ? & _)]; [| discriminate].
      destruct under; [| by apply elem_of_nil in H].
      destruct (matches (subject sel) e0) eqn:E; [| by apply elem_of_nil in H].
      exists e0. auto.
    + intros (e & He & Hm & [-> | (q & a & (i & k & Hq) & _)]).
      * injection He as <-. rewrite Hm. left. by left.
      * by destruct q.
  - split.
    + intros [H | (i & c & p & [= <- <-] & Hc & Hp)].
      { destruct (under && matches (subject sel) e0);
          [by apply list_elem_of_singleton in H | by apply elem_of_nil in H]. }
      apply IH in Hp as (e & He & Hm & Hanc).
      exists e. unfold get in *. cbn [subtree children]. rewrite Hc.
      split; [exact He |]. split; [exact Hm |].
      destruct Hanc as [Hu | (q & a & (i & k & ->) & Ha & Hma)].
      * apply orb_true_iff in Hu as [-> | Hu]; [by left |].
        right. exists [], e0. split; [by exists j, p' |]. auto.
      * right. exists (j :: q), a. split; [by exists i, k |].
        cbn [subtree children]. rewrite Hc. auto.
    + intros (e & He & Hm & Hanc). right.
      unfold get in He. cbn [subtree children] in He.
      destruct (cs !! j) as [c |] eqn:Hc; [| discriminate].
      exists j, c, p'. split; [reflexivity |]. split; [exact Hc |].
      apply IH. exists e. split; [exact He |]. split; [exact Hm |].
      destruct Hanc as [-> | (q & a & (i & k & Hq) & Ha & Hma)]; [by left |].
      destruct q as [| j' q'].
      * injection Ha as <-. left. rewrite Hma. apply orb_true_r.
      * injection Hq as -> ->. right. exists q', a.
        split; [by exists i, k |].
        unfold get in Ha. cbn [subtree children] in Ha.
        rewrite Hc in Ha. auto.
Qed.

Lemma elem_of_querySelectorAll (sel : selector) (doc : node) (p : path) :
  p ∈ querySelectorAll sel doc <->
  exists e,
    get p doc = Some e /\ matches (subject sel) e = true /\
    exists q a, proper_ancestor q p /\ get q doc = Some a /\
                matches (ancestor sel) a = true.
Proof.
  unfold querySelectorAll. rewrite elem_of_select. split.
  - intros (e & He & Hm & [? | H]); [discriminate | eauto].
  - intros (e & He & Hm & H). eauto.
Qed.

Lemma querySelectorAll_valid (sel : selector) (doc : node) (p : path) :
  p ∈ querySelectorAll sel doc -> is_Some (get p doc).
Proof.
  intros (e & He & _)%elem_of_querySelectorAll. eauto.
Qed.

(** *** The handler, element by element *)

Lemma DOMContentLoaded_spec (st : state) :
  let links := querySelectorAll nav_menu_a (document st) in
  exists doc',
    DOMContentLoaded st =
      (State (pathname st) doc'
         (console st ++ ["ODE Methods website loaded"])%list,
       if completes (pathname st) (document st) links
       then Normal else TypeError) /\
    forall p,
      get p doc' =
      if decide (p ∈ visited (pathname st) (document st) links)
      then highlighted (pathname st) <$> get p (document st)
      else get p (document st).
Proof.
  intros links. unfold DOMContentLoaded.
  destruct (forEach_highlight (pathname st) links (document st))
    as (doc' & E & G).
  exists doc'. cbv zeta. fold links. rewrite E. auto.
Qed.

Lemma visited_subseteq (cur : string) (doc : node) (links : list path)
  (p : path) :
  p ∈ visited cur doc links -> p ∈ links.
Proof.
  induction links as [| q rest IH]; cbn [visited]; [done |].
  destruct (raises_at cur doc q); [by intros ?%elem_of_nil |].
  intros [-> | H]%elem_of_cons; [by left | right; auto].
Qed.

Lemma visited_app (cur : string) (doc : node) (l1 l2 : list path) :
  (forall q, q ∈ l1 -> raises_at cur doc q = false) ->
  visited cur doc (l1 ++ l2) = (l1 ++ visited cur doc l2)%list.
Proof.
  induction l1 as [| q l1 IH]; intros H; [reflexivity |].
  cbn [visited app]. rewrite (H q) by (by left).
  rewrite IH; [reflexivity |]. intros q' Hq'. apply H. by right.
Qed.


(** On a valid reference the callback raises only where the [href] is
    the current path and the style object is missing. *)
Lemma raises_at_false (cur : string) (doc : node) (q : path) (e : element) :
  get q doc = Some e ->
  (getAttribute e "href" = Some cur -> is_Some (style e)) ->
  raises_at cur doc q = false.
Proof.
  intros He H. unfold raises_at, raises_on. rewrite He.
  destruct (decide (getAttribute e "href" = Some cur)) as [Hh | Hh].
  - destruct (H Hh) as [s Hs].
    rewrite (bool_decide_eq_false_2 (style e = None)) by (by rewrite Hs).
    apply andb_false_r.
  - by rewrite (bool_decide_eq_false_2 _ Hh).
Qed.

(** C4, as stated, fails.  On a page whose navigation bar holds an [a]
    element without a style object and with the current path as [href],
    the handler stops at that element with a [TypeError]: the ordinary
    link after it, whose [href] is the current path too, keeps the style
    it had, with no [opacity] and no [fontWeight]. *)
Lemma current_link_not_highlighted :
  [0; 2] ∈ querySelectorAll nav_menu_a (document foreign_state) /\
  get [0; 2] (document foreign_state)
    = Some (Element "a" [] {[ "href" := "/phase-portraits" ]} (Some ∅)) /\
  getAttribute (Element "a" [] {[ "href" := "/phase-portraits" ]} (Some ∅))
    "href" = Some (pathname foreign_state) /\
  snd (DOMContentLoaded foreign_state) = TypeError /\
  get [0; 2] (document (fst (DOMContentLoaded foreign_state)))
    = Some (Element "a" [] {[ "href" := "/phase-portraits" ]} (Some ∅)).
Proof.
  split; [apply (bool_decide_unpack _); vm_compute; exact I |].
  repeat split; vm_compute; reflexivity.
Qed.

(** C4, amended.  A navigation link whose [href] attribute is the
    current [window.location.pathname] has [style.opacity] equal to ['1']
    and [style.fontWeight] equal to ['bold'] once the handler has run,
    provided that it has a style object and that so has every selected
    link before it in document order whose [href] is the current path
    too.  Whether the handler then ends normally or raises further on
    does not matter. *)
Theorem current_link_highlighted (st : state) (before after : list path)
  (p : path) (e : element) :
  querySelectorAll nav_menu_a (document st) = (before ++ p :: after)%list ->
  (forall q eq,
     q ∈ before ->
     get q (document st) = Some eq ->
     getAttribute eq "href" = Some (pathname st) ->
     is_Some (style eq)) ->
  get p (document st) = Some e ->
  getAttribute e "href" = Some (pathname st) ->
  is_Some (style e) ->
  exists st' c e' s',
    DOMContentLoaded st = (st', c) /\
    get p (document st') = Some e' /\
    style e' = Some s' /\
    s' !! "opacity" = Some "1" /\
    s' !! "fontWeight" = Some "bold".
Proof.
  intros Hsel Hbefore He Hhref [s Hs].
  destruct (DOMContentLoaded_spec st) as (doc' & E & G).
  cbv zeta in E, G. rewrite Hsel in E, G.
  assert (Hvis : p ∈ visited (pathname st) (document st)
                       (before ++ p :: after)).
  { rewrite visited_app.
    - cbn [visited].
      rewrite (raises_at_false _ _ p e He) by eauto.
      apply elem_of_app. right. by left.
    - intros q Hq.
      destruct (querySelectorAll_valid nav_menu_a (document st) q)
        as [eq Heq].
      { rewrite Hsel. apply elem_of_app. by left. }
      apply (raises_at_false _ _ q eq Heq). eauto. }
  eexists _, _, (highlighted (pathname st) e), _.
  split; [exact E |]. cbn [document].
  rewrite G, decide_True, He by exact Hvis.
  split; [reflexivity |].
  unfold highlighted. rewrite decide_True by exact Hhref.
  destruct e as [ln cl att sty]. cbn in Hs. subst sty.
  unfold set_style. cbn. split; [reflexivity |].
  by rewrite !lookup_insert.
Qed.

(** C4, amended, on the sample page: the second link of the navigation
    bar, after a first link whose [href] is another path. *)
Lemma current_link_highlighted_witness :
  (querySelectorAll nav_menu_a (document sample_state)
     = ([[0; 0]] ++ [0; 1] :: [])%list /\
   (forall q eq,
      q ∈ [[0; 0]] ->
      get q (document sample_state) = Some eq ->
      getAttribute eq "href" = Some (pathname sample_state) ->
      is_Some (style eq)) /\
   get [0; 1] (document sample_state)
     = Some (Element "a" [] {[ "href" := "/phase-portraits" ]} (Some ∅)) /\
   getAttribute (Element "a" [] {[ "href" := "/phase-portraits" ]} (Some ∅))
     "href" = Some (pathname sample_state) /\
   is_Some (style (Element "a" [] {[ "href" := "/phase-portraits" ]} (Some ∅))))
  /\
  exists st' c e' s',
    DOMContentLoaded sample_state = (st', c) /\
    get [0; 1] (document st') = Some e' /\
    style e' = Some s' /\
    s' !! "opacity" = Some "1" /\
    s' !! "fontWeight" = Some "bold".
Proof.
  assert (Hsel : querySelectorAll nav_menu_a (document sample_state)
                 = ([[0; 0]] ++ [0; 1] :: [])%list) by reflexivity.
  assert (Hbefore : forall q eq,
      q ∈ [[0; 0]] ->
      get q (document sample_state) = Some eq ->
      getAttribute eq "href" = Some (pathname sample_state) ->
      is_Some (style eq)).
  { intros q eq Hq Heq _. apply list_elem_of_singleton in Hq. subst q.
    change (get [0; 0] (document sample_state))
      with (Some (elem (a_link "/"))) in Heq.
    injection Heq as <-. cbn. eauto. }
  assert (He : get [0; 1] (document sample_state)
     = Some (Element "a" [] {[ "href" := "/phase-portraits" ]} (Some ∅)))
    by reflexivity.
  assert (Hhref :
    getAttribute (Element "a" [] {[ "href" := "/phase-portraits" ]} (Some ∅))
      "href" = Some (pathname sample_state)) by reflexivity.
  assert (Hs : is_Some
    (style (Element "a" [] {[ "href" := "/phase-portraits" ]} (Some ∅))))
    by (cbn; eauto).
  split; [auto |].
  exact (current_link_highlighted sample_state [[0; 0]] [] [0; 1] _
           Hsel Hbefore He Hhref Hs).
Defined.

(** C5. A navigation link whose [href] attribute is not the current
    [window.location.pathname] is the same element after the handler as
    before it: its attributes and all its style properties are intact. *)
Theorem other_links_unchanged (st : state) (p : path) (e : element) :
  p ∈ querySelectorAll nav_menu_a (document st) ->
  get p (document st) = Some e ->
  getAttribute e "href" <> Some (pathname st) ->
  exists st' c,
    DOMContentLoaded st = (st', c) /\
    get p (document st') = Some e.
Proof.
  intros Hin He Hhref.
  destruct (DOMContentLoaded_spec st) as (doc' & E & G).
  eexists _, _. split; [exact E |].
  cbn [document]. rewrite G, He.
  case_decide; [| reflexivity].
  cbn. unfold highlighted. by rewrite decide_False by exact Hhref.
Qed.

(** C5 on the sample page: the first link of the navigation bar. *)
Lemma other_links_unchanged_witness :
  let e := Element "a" [] {[ "href" := "/" ]} (Some ∅) in
  ([0; 0] ∈ querySelectorAll nav_menu_a (document sample_state) /\
   get [0; 0] (document sample_state) = Some e /\
   getAttribute e "href" <> Some (pathname sample_state)) /\
  exists st' c,
    DOMContentLoaded sample_state = (st', c) /\
    get [0; 0] (document st') = Some e.
Proof.
  intros e.
  assert (Hin : [0; 0] ∈ querySelectorAll nav_menu_a (document sample_state)).
  { apply (bool_decide_unpack _). vm_compute. exact I. }
  assert (He : get [0; 0] (document sample_state) = Some e)
    by reflexivity.
  assert (Hhref : getAttribute e "href" <> Some (pathname sample_state)).
  { vm_compute. discriminate. }
  split; [auto |].
  exact (other_links_unchanged sample_state [0; 0] e Hin He Hhref).
Defined.

(** C9. The handler leaves [window.location] as it is, keeps the shape of
    the document, and keeps the name, the classes and every attribute
    (so the [href]) of every element.  Of the style properties only
    [opacity] and [fontWeight] can differ afterwards, and the style of an
    element differs only if the element is a navigation link whose [href]
    is the current path.  This holds however the handler ends. *)
Theorem handler_frame (st : state) :
  exists st' c,
    DOMContentLoaded st = (st', c) /\
    pathname st' = pathname st /\
    forall p,
      match get p (document st), get p (document st') with
      | Some e, Some e' =>
          localName e' = localName e /\
          classList e' = classList e /\
          attributes e' = attributes e /\
          match style e, style e' with
          | Some s, Some s' =>
              forall k, k <> "opacity" -> k <> "fontWeight" ->
                        s' !! k = s !! k
          | None, None => True
          | _, _ => False
          end /\
          (style e' <> style e ->
           p ∈ querySelectorAll nav_menu_a (document st) /\
           getAttribute e "href" = Some (pathname st))
      | None, None => True
      | _, _ => False
      end.
Proof.
  destruct (DOMContentLoaded_spec st) as (doc' & E & G).
  cbv zeta in E, G.
  eexists _, _. split; [exact E |]. split; [reflexivity |].
  intros p. cbn [document]. rewrite G.
  destruct (get p (document st)) as [e |]; [| by case_decide].
  assert (Hsame :
    localName e = localName e /\ classList e = classList e /\
    attributes e = attributes e /\
    match style e, style e with
    | Some s, Some s' =>
        forall k, k <> "opacity" -> k <> "fontWeight" -> s' !! k = s !! k
    | None, None => True
    | _, _ => False
    end /\
    (style e <> style e ->
     p ∈ querySelectorAll nav_menu_a (document st) /\
     getAttribute e "href" = Some (pathname st))).
  { repeat split; try (by destruct (style e)). all: congruence. }
  case_decide as Hin; cbn; [| exact Hsame].
  apply visited_subseteq in Hin.
  unfold highlighted.
  destruct (decide (getAttribute e "href" = Some (pathname st))) as [Hh | Hh];
    [| exact Hsame].
  clear Hsame. destruct e as [ln cl att [s |]]; unfold set_style; cbn.
  - repeat split; try assumption.
    intros k Ho Hf. by rewrite !lookup_insert_ne by congruence.
  - repeat split; try assumption.
Qed.

End Dom.

(** ** The file as a whole *)

Module MainJs.

Import JsString Dom.

(** *** One substitution with alternatives

    What the specification calls a single regular expression substitution: one
    global [replace] whose pattern is an alternation [/r1|r2|.../g] and
    whose replacer gives each alternative its own text.  At a position
    the alternatives are tried from left to right. *)















End MainJs.

(** ** Further behaviour of [formatEquation] *)

Module FormatEquationFacts.

Import JsString.

(** [String.prototype.repeat]. *)
Fixpoint str_repeat (s : string) (n : nat) : string :=
  match n with
  | 0 => EmptyString
  | S n' => s ++ str_repeat s n'
  end.

(** [s.endsWith('*')]. *)
Fixpoint ends_with_star (s : string) : bool :=
  match s with
  | EmptyString => false
  | String c EmptyString => is_star c
  | String _ s' => ends_with_star s'
  end.

(** [s.startsWith('*')]. *)
Definition starts_with_star (s : string) : bool := String.prefix "*" s.

Lemma append_cons (c : ascii) (s t : string) :
  String c s ++ t = String c (s ++ t).
Proof. reflexivity. Qed.

Lemma append_assoc (s t u : string) : (s ++ t) ++ u = s ++ t ++ u.
Proof.
  induction s as [| c s' IH]; [reflexivity |].
  now rewrite !append_cons, IH.
Qed.

Lemma starts_with_star_cons (c : ascii) (s : string) :
  starts_with_star (String c s) = is_star c.
Proof.
  unfold starts_with_star, is_star. cbn [String.prefix].
  rewrite (Ascii.eqb_sym c).
  destruct (ascii_dec "*" c) as [<- | Hne].
  - now destruct s.
  - destruct (Ascii.eqb_spec "*" c) as [E | _]; [contradiction | reflexivity].
Qed.

Lemma ends_with_star_cons (c d : ascii) (s : string) :
  ends_with_star (String c (String d s)) = ends_with_star (String d s).
Proof. reflexivity. Qed.

(** *** The second substitution is a morphism for concatenation *)

Lemma subst_star_app (s t : string) :
  subst_star (s ++ t) = subst_star s ++ subst_star t.
Proof.
  induction s as [| c s' IH]; [reflexivity |].
  rewrite append_cons. cbn [subst_star].
  destruct (is_star c); now rewrite IH.
Qed.

(** *** The first substitution, where the cut does not split a run of stars *)

Lemma subst_star_star_app (s t : string) :
  ends_with_star s = false \/ starts_with_star t = false ->
  subst_star_star (s ++ t) = subst_star_star s ++ subst_star_star t.
Proof.
  assert (H : forall n s, String.length s < n ->
                ends_with_star s = false \/ starts_with_star t = false ->
                subst_star_star (s ++ t) =
                subst_star_star s ++ subst_star_star t).
  { clear s. induction n as [| n IH]; intros s Hn Hcut; [lia |].
    destruct s as [| c [| d s'']].
    - reflexivity.
    - change (String c "" ++ t) with (String c t).
      change (subst_star_star (String c "")) with (String c "").
      rewrite append_cons. change ("" ++ subst_star_star t)
        with (subst_star_star t).
      destruct t as [| d t']; [reflexivity |].
      rewrite subst_star_star_cons.
      cbn [ends_with_star] in Hcut. rewrite starts_with_star_cons in Hcut.
      destruct Hcut as [-> | ->]; [reflexivity | now rewrite andb_false_r].
    - rewrite !append_cons, !subst_star_star_cons.
      cbn [String.length] in Hn.
      rewrite ends_with_star_cons in Hcut.
      destruct (is_star c && is_star d).
      + rewrite append_cons. f_equal. apply IH; [lia |].
        destruct s'' as [| x s3]; [by left | exact Hcut].
      + rewrite append_cons. f_equal.
        rewrite <- append_cons. apply IH; [cbn [String.length]; lia |].
        exact Hcut. }
  apply (H (S (String.length s))). lia.
Qed.

Lemma subst_star_star_stars (n : nat) :
  subst_star_star (str_repeat "*" n) =
  str_repeat "^" (Nat.div2 n) ++ (if Nat.odd n then "*" else "").
Proof.
  assert (H : forall m, m <= n ->
            subst_star_star (str_repeat "*" m) =
            str_repeat "^" (Nat.div2 m) ++ (if Nat.odd m then "*" else "")).
  { induction n as [| n IH]; intros m Hm.
    - replace m with 0 by lia. reflexivity.
    - destruct m as [| [| m]]; [reflexivity | reflexivity |].
      change (str_repeat "*" (S (S m)))
        with (String "*" (String "*" (str_repeat "*" m))).
      rewrite subst_star_star_cons. cbn [is_star andb Nat.div2 str_repeat].
      change (Nat.odd (S (S m))) with (Nat.odd m).
      change (Ascii.eqb "*" "*") with true. cbn [andb].
      rewrite IH by lia. reflexivity. }
  apply H. lia.
Qed.

Lemma subst_star_star_other (c : ascii) (s : string) :
  is_star c = false ->
  subst_star_star (String c s) = String c (subst_star_star s).
Proof.
  intros Hc. destruct s as [| d s']; [reflexivity |].
  now rewrite subst_star_star_cons, Hc.
Qed.

Lemma subst_star_carets (k : nat) :
  subst_star (str_repeat "^" k) = str_repeat "^" k.
Proof.
  induction k as [| k IH]; [reflexivity |].
  change (str_repeat "^" (S k)) with (String "^" (str_repeat "^" k)).
  cbn [subst_star]. change (is_star "^") with false. now rewrite IH.
Qed.

Lemma formatEquation_subst (s : string) :
  formatEquation s = subst_star (subst_star_star s).
Proof.
  unfold formatEquation.
  now rewrite replace_star_star_correct, replace_star_correct.
Qed.

(** X1. A run of [n] stars is paired from the left: it becomes [n / 2]
    carets, followed by one [\cdot ] when [n] is odd.  So [***] reads as
    a power sign and then a product sign, never the other way round. *)
Theorem formatEquation_stars (n : nat) :
  formatEquation (str_repeat "*" n) =
  str_repeat "^" (Nat.div2 n) ++ (if Nat.odd n then cdot else "").
Proof.
  rewrite formatEquation_subst, subst_star_star_stars, subst_star_app.
  rewrite subst_star_carets. now destruct (Nat.odd n).
Qed.

(** X2. Formatting can be done piece by piece wherever the cut does not
    fall between two stars: if [s] does not end with a star or [t] does
    not start with one, the result for [s ++ t] is the result for [s]
    followed by the result for [t]. *)
Theorem formatEquation_app (s t : string) :
  ends_with_star s = false \/ starts_with_star t = false ->
  formatEquation (s ++ t) = formatEquation s ++ formatEquation t.
Proof.
  intros Hcut.
  rewrite !formatEquation_subst, (subst_star_star_app s t Hcut).
  apply subst_star_app.
Qed.

(** X2 at the cut [x**2] / [*y]. *)
Lemma formatEquation_app_witness :
  (ends_with_star "x**2" = false \/ starts_with_star "*y" = false) /\
  formatEquation ("x**2" ++ "*y")
  = formatEquation "x**2" ++ formatEquation "*y".
Proof.
  assert (H : ends_with_star "x**2" = false \/ starts_with_star "*y" = false)
    by (left; reflexivity).
  split; [exact H |].
  exact (formatEquation_app "x**2" "*y" H).
Defined.

(** X3. The result does not tell a caret of the input from a double
    star: after a text that does not end with a star, [**] and [^] give
    the same result, so the input cannot be recovered from it. *)
Theorem formatEquation_caret_collision (s t : string) :
  ends_with_star s = false ->
  formatEquation (s ++ "**" ++ t) = formatEquation (s ++ "^" ++ t).
Proof.
  intros Hs.
  rewrite (formatEquation_app s ("**" ++ t)) by (by left).
  rewrite (formatEquation_app s ("^" ++ t)) by (by right).
  f_equal. rewrite !formatEquation_subst.
  change ("**" ++ t) with (String "*" (String "*" t)).
  change ("^" ++ t) with (String "^" t).
  rewrite subst_star_star_cons.
  rewrite (subst_star_star_other "^" t) by reflexivity.
  reflexivity.
Qed.

(** X3 at [x**2] and [x^2]. *)
Lemma formatEquation_caret_collision_witness :
  ends_with_star "x" = false /\
  formatEquation ("x" ++ "**" ++ "2") = formatEquation ("x" ++ "^" ++ "2").
Proof.
  split; [reflexivity |].
  exact (formatEquation_caret_collision "x" "2" eq_refl).
Defined.

(** X4. [formatEquation] returns its input unchanged exactly when the
    input holds no star. *)
Theorem formatEquation_fixed_point (s : string) :
  formatEquation s = s <-> includes "*" s = false.
Proof.
  rewrite formatEquation_subst. split.
  - intros E. rewrite <- E. apply subst_star_no_star.
  - intros H. now rewrite (subst_star_star_id s H), (subst_star_id s H).
Qed.

End FormatEquationFacts.

(** ** Further behaviour of the [DOMContentLoaded] handler *)

Module HandlerFacts.

Import Dom.

(** Induction on a document tree, with the hypothesis on every child. *)
Fixpoint node_children_ind (P : node -> Prop)
  (step : forall e cs, Forall P cs -> P (Node e cs)) (n : node) : P n :=
  match n with
  | Node e cs =>
      step e cs
        ((fix all (l : list node) : Forall P l :=
            match l with
            | [] => @List.Forall_nil node P
            | c :: l' =>
                @List.Forall_cons node P c l'
                  (node_children_ind P step c) (all l')
            end) cs)
  end.

(** Two trees in which every reference designates the same element are
    the same tree. *)
Lemma get_ext (n : node) :
  forall n', (forall p, get p n = get p n') -> n = n'.
Proof.
  induction n as [e cs IH] using node_children_ind.
  intros [e' cs'] H.
  assert (He : e = e') by (specialize (H []); by injection H).
  subst e'. f_equal.
  assert (Hc : forall i p,
             (cs !! i ≫= get p) = (cs' !! i ≫= get p)).
  { intros i p. specialize (H (i :: p)). unfold get in *.
    cbn [subtree children] in H.
    destruct (cs !! i), (cs' !! i); exact H. }
  clear H. revert cs' Hc.
  induction IH as [| c cs Hc0 _ IHcs]; intros cs' Hc.
  - destruct cs' as [| c' cs']; [reflexivity |].
    specialize (Hc 0 []). discriminate.
  - destruct cs' as [| c' cs'].
    { specialize (Hc 0 []). discriminate. }
    f_equal.
    + apply Hc0. intros p. exact (Hc 0 p).
    + apply IHcs. intros i p. exact (Hc (S i) p).
Qed.

(** A run of the loop over links none of which has the current path as
    [href] ends normally and gives the document back. *)
Lemma forEach_no_match (cur : string) (doc : node) (links : list path) :
  (forall q, q ∈ links ->
     exists e, get q doc = Some e /\ getAttribute e "href" <> Some cur) ->
  forEach links (highlight cur) doc = (doc, Normal).
Proof.
  induction links as [| q rest IH]; intros H; cbn [forEach]; [reflexivity |].
  destruct (H q) as (e & He & Hne); [by left |].
  unfold highlight at 1. rewrite He, decide_False by exact Hne.
  apply IH. intros q' Hq'. apply H. by right.
Qed.

(** Two trees of the same shape whose elements have the same names and
    classes. *)
Definition same_names (n n' : node) : Prop :=
  forall p,
    match get p n, get p n' with
    | Some e, Some e' =>
        localName e = localName e' /\ classList e = classList e'
    | None, None => True
    | _, _ => False
    end.

Lemma matches_same_names (sel : simple_selector) (e e' : element) :
  localName e = localName e' -> classList e = classList e' ->
  matches sel e = matches sel e'.
Proof. intros Hn Hc. destruct sel; cbn; by rewrite ?Hn, ?Hc. Qed.

(** The selection reads names and classes only. *)
Lemma select_same_names (sel : selector) (n : node) :
  forall under n', same_names n n' -> select sel under n = select sel under n'.
Proof.
  induction n as [e cs IH] using node_children_ind.
  intros under [e' cs'] H.
  destruct (H []) as [Hn Hc]. cbn in Hn, Hc.
  cbn [select].
  rewrite (matches_same_names (subject sel) e e' Hn Hc).
  rewrite (matches_same_names (ancestor sel) e e' Hn Hc).
  f_equal.
  assert (Hkids : forall i p,
            match cs !! i ≫= get p, cs' !! i ≫= get p with
            | Some a, Some a' =>
                localName a = localName a' /\ classList a = classList a'
            | None, None => True
            | _, _ => False
            end).
  { intros i p. specialize (H (i :: p)). unfold get in *.
    cbn [subtree children] in H.
    destruct (cs !! i), (cs' !! i); exact H. }
  clear H. generalize 0 as i.
  generalize (under || matches (ancestor sel) e') as u.
  revert cs' Hkids.
  induction IH as [| c cs Hc0 _ IHcs]; intros cs' Hkids u i.
  - destruct cs' as [| c' cs']; [reflexivity |].
    specialize (Hkids 0 []). cbn in Hkids. contradiction.
  - destruct cs' as [| c' cs'].
    { specialize (Hkids 0 []). cbn in Hkids. contradiction. }
    cbn [select_children]. f_equal.
    + f_equal. apply Hc0. intros p. exact (Hkids 0 p).
    + apply IHcs. intros j p. exact (Hkids (S j) p).
Qed.

Lemma highlighted_same_names (cur : string) (e : element) :
  localName (highlighted cur e) = localName e /\
  classList (highlighted cur e) = classList e.
Proof.
  unfold highlighted. case_decide; [| done].
  destruct (set_style_attributes "fontWeight" "bold"
              (set_style "opacity" "1" e)) as (-> & -> & _).
  by destruct (set_style_attributes "opacity" "1" e) as (-> & -> & _).
Qed.

(** The handler selects the same links when it runs again. *)
Lemma querySelectorAll_highlighted (sel : selector) (cur : string)
  (links : list path) (doc doc' : node) :
  (forall p, get p doc' =
             if decide (p ∈ links) then highlighted cur <$> get p doc
             else get p doc) ->
  querySelectorAll sel doc' = querySelectorAll sel doc.
Proof.
  intros G. apply select_same_names. intros p. rewrite G.
  destruct (get p doc) as [e |]; case_decide; cbn; try done.
  destruct (highlighted_same_names cur e) as [-> ->]. done.
Qed.

(** X5. The links the handler selects are exactly the elements named [a]
    that have a proper ancestor whose class list holds [nav-menu]: a link
    outside every such ancestor, or an [a] that only carries the class
    itself, is not selected. *)
Theorem nav_links_selected (doc : node) (p : path) :
  p ∈ querySelectorAll nav_menu_a doc <->
  exists e,
    get p doc = Some e /\ localName e = "a" /\
    exists q a, proper_ancestor q p /\ get q doc = Some a /\
                "nav-menu" ∈ classList a.
Proof.
  rewrite elem_of_querySelectorAll. cbn [nav_menu_a subject ancestor matches].
  split.
  - intros (e & He & Hm & q & a & Hq & Ha & Hc).
    exists e. split; [exact He |].
    split; [symmetry; by apply String.eqb_eq |].
    exists q, a. split; [exact Hq |]. split; [exact Ha |].
    by apply bool_decide_eq_true in Hc.
  - intros (e & He & Hm & q & a & Hq & Ha & Hc).
    exists e. split; [exact He |].
    split; [apply String.eqb_eq; by symmetry |].
    exists q, a. split; [exact Hq |]. split; [exact Ha |].
    by apply bool_decide_eq_true.
Qed.

(** X6. The comparison is exact: when no selected link has an [href]
    equal, character for character, to the current path (an unknown page,
    a path with a trailing slash), the handler ends normally, leaves the
    whole document as it is and only logs its line. *)
Theorem no_current_link_no_change (st : state) :
  (forall p e,
     p ∈ querySelectorAll nav_menu_a (document st) ->
     get p (document st) = Some e ->
     getAttribute e "href" <> Some (pathname st)) ->
  DOMContentLoaded st =
    (State (pathname st) (document st)
       (console st ++ ["ODE Methods website loaded"])%list,
     Normal).
Proof.
  intros H. unfold DOMContentLoaded. cbv zeta.
  rewrite forEach_no_match; [reflexivity |].
  intros q Hq. destruct (querySelectorAll_valid _ _ _ Hq) as [e He].
  exists e. split; [exact He |]. exact (H q e Hq He).
Qed.

(** The sample page, reached with a trailing slash. *)
Definition sample_state_slash : state :=
  State "/phase-portraits/" sample_page [].

(** X6 on the sample page with the path [/phase-portraits/]. *)
Lemma no_current_link_no_change_witness :
  (forall p e,
     p ∈ querySelectorAll nav_menu_a (document sample_state_slash) ->
     get p (document sample_state_slash) = Some e ->
     getAttribute e "href" <> Some (pathname sample_state_slash)) /\
  DOMContentLoaded sample_state_slash =
    (State "/phase-portraits/" sample_page
       ["ODE Methods website loaded"],
     Normal).
Proof.
  assert (H : forall p e,
     p ∈ querySelectorAll nav_menu_a (document sample_state_slash) ->
     get p (document sample_state_slash) = Some e ->
     getAttribute e "href" <> Some (pathname sample_state_slash)).
  { intros p e Hin He.
    change (querySelectorAll nav_menu_a (document sample_state_slash))
      with [[0; 0]; [0; 1]] in Hin.
    apply elem_of_cons in Hin as [-> | Hin].
    - change (get [0; 0] (document sample_state_slash))
        with (Some (elem (a_link "/"))) in He.
      injection He as <-. vm_compute. discriminate.
    - apply list_elem_of_singleton in Hin as ->.
      change (get [0; 1] (document sample_state_slash))
        with (Some (elem (a_link "/phase-portraits"))) in He.
      injection He as <-. vm_compute. discriminate. }
  split; [exact H |].
  exact (no_current_link_no_change sample_state_slash H).
Defined.

(** X7. Running the handler again changes nothing more in the page: a
    second run leaves the document and the path of the first and ends
    the way the first did, normally or with the same error; each run
    adds one line to the console. *)
Theorem handler_twice (st : state) :
  exists st1 c1 st2 c2,
    DOMContentLoaded st = (st1, c1) /\
    DOMContentLoaded st1 = (st2, c2) /\
    document st2 = document st1 /\
    c2 = c1 /\
    pathname st2 = pathname st1 /\
    console st2 =
      (console st ++ ["ODE Methods website loaded";
                      "ODE Methods website loaded"])%list.
Proof.
  destruct (DOMContentLoaded_spec st) as (doc1 & E1 & G1).
  cbv zeta in E1, G1.
  set (links := querySelectorAll nav_menu_a (document st)) in *.
  set (st1 := State (pathname st) doc1
                (console st ++ ["ODE Methods website loaded"])%list) in *.
  destruct (DOMContentLoaded_spec st1) as (doc2 & E2 & G2).
  cbv zeta in E2, G2. cbn [document pathname console st1] in E2, G2.
  rewrite (querySelectorAll_highlighted _ _ _ _ _ G1) in E2, G2.
  fold links in E2, G2.
  destruct (visited_highlighted (pathname st) (document st) doc1 links)
    as [Ev Ec].
  { apply raises_at_highlighted. intros p. rewrite G1. case_decide; auto. }
  rewrite Ev in G2. rewrite Ec in E2.
  eexists _, _, _, _. split; [exact E1 |]. split; [exact E2 |].
  cbn [document pathname console st1].
  split; [| split; [reflexivity | split; [reflexivity |]]].
  - symmetry. apply get_ext. intros p. rewrite G2, G1.
    case_decide as Hin; [| reflexivity].
    destruct (get p (document st)) as [e |]; [| reflexivity].
    cbn. by rewrite highlighted_idempotent.
  - by rewrite <- app_assoc.
Qed.

End HandlerFacts.
